(** * Easy3D [Frame]: a shallow embedding of [frame.h]

    The class [Frame] of [frame.h] is a coordinate system: a local
    translation [t_] and rotation [q_] with respect to an optional
    [referenceFrame_], an optional [constraint_] and a set of observers.
    Frames point to each other, so the embedding keeps them in a store
    indexed by addresses and every member function takes [this] as an
    address.

    The arithmetic of [double] is idealised as the arithmetic of the real
    numbers: rounding, overflow and NaN are outside this development, and
    "equal up to floating-point error" in the documentation becomes
    equality.  *)

From Stdlib Require Import Reals Lra.
From stdpp Require Import gmap.

Open Scope R_scope.

(** ** [vec3] and [quat] *)

(** Modelled from the spec: [model/math_types.h], which declares [vec3] and
    [quat], is not part of the sources.  [vec3] is a 3D vector of
    scalars. *)
Record vec3 : Type := mkvec3 { vx : R; vy : R; vz : R }.

(** Modelled from the spec: the operations of [vec3] (absent with
    [model/math_types.h]): the zero vector, the componentwise sum,
    difference and negation ([+], binary and unary [-] in the header), the
    dot product and the Euclidean length. *)
Definition vzero : vec3 := mkvec3 0 0 0.
Definition vadd (a b : vec3) : vec3 :=
  mkvec3 (vx a + vx b) (vy a + vy b) (vz a + vz b).
Definition vsub (a b : vec3) : vec3 :=
  mkvec3 (vx a - vx b) (vy a - vy b) (vz a - vz b).
Definition vneg (a : vec3) : vec3 := mkvec3 (- vx a) (- vy a) (- vz a).
Definition vdot (a b : vec3) : R := vx a * vx b + vy a * vy b + vz a * vz b.
Definition vlength (a : vec3) : R := sqrt (vdot a a).

(** Modelled from the spec: [quat] of [model/math_types.h] (absent) is a
    quaternion [(qx, qy, qz, qw)] with scalar part [qw]. *)
Record quat : Type := mkquat { qx : R; qy : R; qz : R; qw : R }.

(** Modelled from the spec: the identity rotation, the norm of a
    quaternion and what the spec calls a unit quaternion. *)
Definition qidentity : quat := mkquat 0 0 0 1.
Definition qnorm2 (q : quat) : R :=
  qx q * qx q + qy q * qy q + qz q * qz q + qw q * qw q.
Definition qnorm (q : quat) : R := sqrt (qnorm2 q).
Definition is_unit (q : quat) : Prop := qnorm q = 1.

(** Modelled from the spec: the operations of [quat] (absent with
    [model/math_types.h]) that the frame uses.  [inverse] is the inverse
    of a unit quaternion, its conjugate; [qmul] is the product, by which
    rotations are composed ([*] in the spec); [rotate] is the right-handed
    active rotation of a vector by a unit quaternion (spec, 9), written as
    the product with the rotation matrix of the quaternion;
    [inverse_rotate] rotates by the inverse.  [inverse] and
    [inverse_rotate] are the names [worldInverse()] uses. *)
Definition inverse (q : quat) : quat :=
  mkquat (- qx q) (- qy q) (- qz q) (qw q).
Definition qmul (a b : quat) : quat :=
  mkquat (qw a * qx b + qw b * qx a + qy a * qz b - qz a * qy b)
         (qw a * qy b + qw b * qy a + qz a * qx b - qx a * qz b)
         (qw a * qz b + qw b * qz a + qx a * qy b - qy a * qx b)
         (qw a * qw b - qx b * qx a - qy a * qy b - qz a * qz b).
Definition rotate (q : quat) (v : vec3) : vec3 :=
  let q00 := 2 * qx q * qx q in
  let q11 := 2 * qy q * qy q in
  let q22 := 2 * qz q * qz q in
  let q01 := 2 * qx q * qy q in
  let q02 := 2 * qx q * qz q in
  let q03 := 2 * qx q * qw q in
  let q12 := 2 * qy q * qz q in
  let q13 := 2 * qy q * qw q in
  let q23 := 2 * qz q * qw q in
  mkvec3
    ((1 - q11 - q22) * vx v + (q01 - q23) * vy v + (q02 + q13) * vz v)
    ((q01 + q23) * vx v + (1 - q22 - q00) * vy v + (q12 - q03) * vz v)
    ((q02 - q13) * vx v + (q12 + q03) * vy v + (1 - q11 - q00) * vz v).
Definition inverse_rotate (q : quat) (v : vec3) : vec3 :=
  rotate (inverse q) v.

(** ** The store of frames *)

(** [Frame *], [FrameObserver *] and [Constraint *]: addresses.  A null
    pointer is [None] of the [option] type. *)
Definition FramePtr : Type := positive.
Definition ObserverPtr : Type := positive.
Definition ConstraintPtr : Type := positive.

(** The data members of [class Frame], in the order of the header. *)
Record Frame : Type := mkFrame {
  observers_ : gset ObserverPtr;
  t_ : vec3;
  q_ : quat;
  constraint_ : option ConstraintPtr;
  referenceFrame_ : option FramePtr
}.

Definition set_observers_ (o : gset ObserverPtr) (F : Frame) : Frame :=
  mkFrame o (t_ F) (q_ F) (constraint_ F) (referenceFrame_ F).
Definition set_t_ (t : vec3) (F : Frame) : Frame :=
  mkFrame (observers_ F) t (q_ F) (constraint_ F) (referenceFrame_ F).
Definition set_q_ (q : quat) (F : Frame) : Frame :=
  mkFrame (observers_ F) (t_ F) q (constraint_ F) (referenceFrame_ F).
Definition set_constraint_ (c : option ConstraintPtr) (F : Frame) : Frame :=
  mkFrame (observers_ F) (t_ F) (q_ F) c (referenceFrame_ F).
Definition set_referenceFrame_ (r : option FramePtr) (F : Frame) : Frame :=
  mkFrame (observers_ F) (t_ F) (q_ F) (constraint_ F) r.

(** The memory a program with frames runs in: the frames that are alive,
    by address, and the calls of [FrameObserver::onFrameModified] made so
    far, oldest first, each recorded by the observer that received it. *)
Record Mem : Type := mkMem {
  frames : gmap FramePtr Frame;
  notified : list ObserverPtr
}.

(** How often observer [o] has been notified in the log [l]. *)
Definition notifications (o : ObserverPtr) (l : list ObserverPtr) : nat :=
  length (filter (λ x, x = o) l).

(** Member functions are computations over the memory; a call through a
    pointer to no live frame has no result. *)
Definition M (A : Type) : Type := Mem → option (A * Mem).

#[global] Instance M_ret : MRet M := λ A a m, Some (a, m).
#[global] Instance M_bind : MBind M := λ A B k c m,
  match c m with
  | Some (a, m') => k a m'
  | None => None
  end.

(** Reading [*this], and assigning to data members of [*this]. *)
Definition deref (this : FramePtr) : M Frame :=
  λ m, F ← frames m !! this; Some (F, m).
Definition assign (this : FramePtr) (f : Frame → Frame) : M unit :=
  λ m, F ← frames m !! this;
       Some (tt, mkMem (<[this := f F]> (frames m)) (notified m)).

(** A [const] member function computes from the store and [*this] and
    leaves the memory as it is. *)
Definition const_method {A : Type}
    (f : gmap FramePtr Frame → Frame → option A) (this : FramePtr) : M A :=
  λ m, F ← frames m !! this; a ← f (frames m) F; Some (a, m).

(** ** Member functions defined in the header *)

(** Modelled from the spec: [frameModified()] is declared in the header
    and defined elsewhere.  The comment at its declaration says that all
    observers are notified; the spec (4.6) says that this is one pass over
    the current observer set. *)
Definition frameModified (this : FramePtr) : M unit :=
  λ m, F ← frames m !! this;
       Some (tt, mkMem (frames m) (notified m ++ elements (observers_ F))).

(** [void setTranslation(const vec3 &translation)] *)
Definition setTranslation (this : FramePtr) (translation : vec3) : M unit :=
  assign this (set_t_ translation) ;;
  frameModified this.

(** [void setRotation(const quat &rotation)] *)
Definition setRotation (this : FramePtr) (rotation : quat) : M unit :=
  assign this (set_q_ rotation) ;;
  frameModified this.

(** [vec3 translation() const], [quat rotation() const] *)
Definition translation : FramePtr → M vec3 :=
  const_method (λ _ F, Some (t_ F)).
Definition rotation : FramePtr → M quat :=
  const_method (λ _ F, Some (q_ F)).

(** [const Frame *referenceFrame() const], [Constraint *constraint() const] *)
Definition referenceFrame : FramePtr → M (option FramePtr) :=
  const_method (λ _ F, Some (referenceFrame_ F)).
Definition constraint : FramePtr → M (option ConstraintPtr) :=
  const_method (λ _ F, Some (constraint_ F)).

(** [void setConstraint(Constraint *const constraint)] *)
Definition setConstraint (this : FramePtr) (c : option ConstraintPtr) : M unit :=
  assign this (set_constraint_ c).

(** [void addObserver(FrameObserver* obs)]: [observers_.insert(obs)], and
    [void removeObserver(FrameObserver* obs)]: [observers_.erase(obs)], on a
    [std::set]. *)
Definition addObserver (this : FramePtr) (obs : ObserverPtr) : M unit :=
  assign this (λ F, set_observers_ ({[obs]} ∪ observers_ F) F).
Definition removeObserver (this : FramePtr) (obs : ObserverPtr) : M unit :=
  assign this (λ F, set_observers_ (observers_ F ∖ {[obs]}) F).

(** ** Constructors *)

(** Modelled from the spec: the constructors are declared in the header
    and defined elsewhere.  [Frame()] is the identity transform: zero
    translation, identity rotation, no parent, no constraint (spec, 3);
    [Frame(position, orientation)] is a frame without parent at the given
    world position and orientation, and [worldInverse()]'s comment says
    that its result has a null reference frame and a null constraint.  A
    new frame has no observers. *)
Definition Frame_new : Frame := mkFrame ∅ vzero qidentity None None.
Definition Frame_at (position : vec3) (orientation : quat) : Frame :=
  mkFrame ∅ position orientation None None.

(** ** Walking the chain of reference frames *)

(** The functions below follow [referenceFrame_] pointers.  The model
    counts the pointers it may still follow: with [n] left a walk reaches
    the [n]-th ancestor at most, and a walk that would go further, or that
    meets a pointer to no live frame, has no result.  A chain that ends is
    walked to its end by every [n] at least its length. *)

(** The frame and its ancestors, the root last. *)
Fixpoint ancestry (n : nat) (s : gmap FramePtr Frame) (F : Frame)
    : option (list Frame) :=
  match referenceFrame_ F with
  | None => Some [F]
  | Some r =>
      match n with
      | O => None
      | S k => P ← s !! r; cons F <$> ancestry k s P
      end
  end.

(** The addresses on the chain that starts at the pointer [f]. *)
Fixpoint chainFrom (n : nat) (s : gmap FramePtr Frame) (f : option FramePtr)
    : option (list FramePtr) :=
  match f with
  | None => Some []
  | Some a =>
      match n with
      | O => None
      | S k => F ← s !! a; cons a <$> chainFrom k s (referenceFrame_ F)
      end
  end.

(** A frame all of whose ancestors exist and carry unit rotations, itself
    included: what the data model of the spec asks of every frame. *)
Definition unit_chain (n : nat) (s : gmap FramePtr Frame) (F : Frame) : Prop :=
  ∃ l, ancestry n s F = Some l ∧ Forall (λ G, is_unit (q_ G)) l.


(** ** Conversion of points and vectors *)

Definition localInverseCoordinatesOf (F : Frame) (src : vec3) : vec3 :=
  vadd (rotate (q_ F) src) (t_ F).

(** Modelled from the spec: the walks of the plain conversions, which
    the header only declares.  [upTo] goes from the frame to the world:
    one level up by [step], then on from the reference frame.  [downFrom]
    goes from the world to the frame: first into the reference frame, then
    one level down by [step]. *)
Fixpoint upTo (step : Frame → vec3 → vec3) (n : nat)
    (s : gmap FramePtr Frame) (F : Frame) (src : vec3) : option vec3 :=
  match referenceFrame_ F with
  | None => Some (step F src)
  | Some r =>
      match n with
      | O => None
      | S k => P ← s !! r; upTo step k s P (step F src)
      end
  end.

Definition inverseCoordinatesOf := upTo localInverseCoordinatesOf.




(** ** World position and orientation *)

(** Modelled from the spec: [position()] and [orientation()] are declared
    in the header and defined elsewhere.  Without a reference frame they
    are the local values.  With one, the orientation is the reference
    frame's world orientation multiplied by the local rotation, and the
    position is the reference frame's world position plus the rotated local
    translation (spec, 4.1).  The rotation applied to the translation is
    the reference frame's world orientation: the translation is given in
    the reference frame, and the frame's own rotation, being about its own
    origin (class comment), does not move that origin. *)
Fixpoint orientation (n : nat) (s : gmap FramePtr Frame) (F : Frame)
    : option quat :=
  match referenceFrame_ F with
  | None => Some (q_ F)
  | Some r =>
      match n with
      | O => None
      | S k => P ← s !! r; (λ o, qmul o (q_ F)) <$> orientation k s P
      end
  end.
Fixpoint position (n : nat) (s : gmap FramePtr Frame) (F : Frame)
    : option vec3 :=
  match referenceFrame_ F with
  | None => Some (t_ F)
  | Some r =>
      match n with
      | O => None
      | S k =>
          P ← s !! r;
          p ← position k s P;
          o ← orientation k s P;
          Some (vadd p (rotate o (t_ F)))
      end
  end.

(** The sentence of the spec read word for word, with the frame's own
    rotation applied to its translation; kept to show that the scenario
    of two frames with identity rotations does not depend on the reading. *)
Fixpoint position_as_worded (n : nat) (s : gmap FramePtr Frame) (F : Frame)
    : option vec3 :=
  match referenceFrame_ F with
  | None => Some (t_ F)
  | Some r =>
      match n with
      | O => None
      | S k =>
          P ← s !! r;
          p ← position_as_worded k s P;
          Some (vadd p (rotate (q_ F) (t_ F)))
      end
  end.

(** [Frame worldInverse() const], from the header:
    [Frame(-(orientation().inverse_rotate(position())), orientation().inverse())] *)
Definition worldInverse (n : nat) (s : gmap FramePtr Frame) (F : Frame)
    : option Frame :=
  o ← orientation n s F;
  p ← position n s F;
  Some (Frame_at (vneg (inverse_rotate o p)) (inverse o)).

(** ** The hierarchy *)

(** Modelled from the spec: [settingAsReferenceFrameWillCreateALoop] is
    declared in the header and defined elsewhere.  It walks the parent
    chain of [frame] and answers true as soon as it meets [this], false
    when the chain ends (spec, 4.3). *)
Fixpoint settingAsReferenceFrameWillCreateALoop (n : nat)
    (s : gmap FramePtr Frame) (this : FramePtr) (frame : option FramePtr)
    : option bool :=
  match frame with
  | None => Some false
  | Some f =>
      if decide (f = this) then Some true
      else match n with
           | O => None
           | S k =>
               F ← s !! f;
               settingAsReferenceFrameWillCreateALoop k s this
                 (referenceFrame_ F)
           end
  end.

(** Modelled from the spec: [setReferenceFrame] is declared in the header
    and defined elsewhere.  An assignment that would create a loop is
    rejected without a change and without a notification; otherwise the
    pointer is assigned and the observers are notified (spec, 4.3 and
    4.6). *)
Definition setReferenceFrame (n : nat) (this : FramePtr)
    (refFrame : option FramePtr) : M unit :=
  λ m,
    b ← settingAsReferenceFrameWillCreateALoop n (frames m) this refFrame;
    if b : bool then Some (tt, m)
    else (assign this (set_referenceFrame_ refFrame) ;; frameModified this) m.

(** ** Constrained displacement *)

Section Constrained.

(** Modelled from the spec: [constraint.h] is not part of the sources.
    A constraint is a capability that, given a proposed translation and
    the frame, returns the filtered translation, and does not change the
    frame (spec, 6). *)
Variable constrainTranslation : ConstraintPtr → vec3 → FramePtr → Mem → vec3.

(** Modelled from the spec: the filter of the attached constraint, the
    identity when no constraint is attached (spec, 4.2). *)
Definition constrained (c : option ConstraintPtr) (t : vec3)
    (this : FramePtr) (m : Mem) : vec3 :=
  match c with
  | Some c => constrainTranslation c t this m
  | None => t
  end.
Definition filtered (this : FramePtr) (t : vec3) : M vec3 :=
  λ m, F ← frames m !! this;
       Some (constrained (constraint_ F) t this m, m).

(** Modelled from the spec: [translate(vec3 &t)] is declared in the header
    and defined elsewhere.  The proposed delta goes through the constraint,
    the filtered delta is added to the translation, the observers are
    notified, and the filtered delta is written back to the argument
    (spec, 4.2).  The result of the computation is the value of the
    reference argument at return. *)
Definition translate (this : FramePtr) (t : vec3) : M vec3 :=
  t' ← filtered this t;
  F ← deref this;
  assign this (set_t_ (vadd (t_ F) t')) ;;
  frameModified this ;;
  mret t'.

(** Modelled from the spec: [setTranslationWithConstraint(vec3 &translation)]
    is declared in the header and defined elsewhere.  The spec (4.2) puts
    it with [translate]: a proposed delta goes through the constraint, the
    filtered delta is applied and written back.  The delta a setter
    proposes is the difference between the requested and the current
    translation. *)
Definition setTranslationWithConstraint (this : FramePtr) (translation : vec3)
    : M vec3 :=
  F ← deref this;
  deltaT ← filtered this (vsub translation (t_ F));
  setTranslation this (vadd (t_ F) deltaT) ;;
  mret deltaT.

End Constrained.

(** ** Concrete memories *)

(** One default-constructed frame at address 1, nothing notified yet. *)
Definition one_frame : Mem := mkMem {[ 1%positive := Frame_new ]} [].

(** A frame at address 1 that has a constraint, a reference frame (at
    address 2) and two observers. *)
Definition busy_frame : Frame :=
  mkFrame {[ 5%positive; 6%positive ]} (mkvec3 1 2 3) qidentity
          (Some 9%positive) (Some 2%positive).
Definition busy_mem : Mem :=
  mkMem (<[ 1%positive := busy_frame ]> {[ 2%positive := Frame_new ]})
        [5%positive].

(** Five frames: a chain 4 → 3 → 2 → 1 with 1 at the root, and 5 on
    another branch below 1.  All rotations are unit quaternions. *)
Definition tower_1 : Frame :=
  mkFrame ∅ (mkvec3 1 2 3) (mkquat (3/5) 0 0 (4/5)) None None.
Definition tower_2 : Frame :=
  mkFrame ∅ (mkvec3 0 1 0) (mkquat 0 1 0 0) None (Some 1%positive).
Definition tower_3 : Frame :=
  mkFrame ∅ (mkvec3 (-1) 0 2) (mkquat 0 (3/5) (4/5) 0) None (Some 2%positive).
Definition tower_4 : Frame :=
  mkFrame ∅ (mkvec3 5 0 0) qidentity None (Some 3%positive).
Definition tower_5 : Frame :=
  mkFrame ∅ (mkvec3 0 0 1) (mkquat 1 0 0 0) None (Some 1%positive).
Definition tower : gmap FramePtr Frame :=
  <[ 1%positive := tower_1 ]> (<[ 2%positive := tower_2 ]>
  (<[ 3%positive := tower_3 ]> (<[ 4%positive := tower_4 ]>
  {[ 5%positive := tower_5 ]}))).

(** The scenario of the spec: [A] at address 1, at the origin; [B] at
    address 2 with reference frame [A] and local translation (1,0,0). *)
Definition two_frames : Mem :=
  mkMem (<[ 1%positive := Frame_new ]>
         {[ 2%positive := mkFrame ∅ (mkvec3 1 0 0) qidentity None
                            (Some 1%positive) ]}) [].

(** A constraint that forbids motion along the first axis. *)
Definition no_x_motion : ConstraintPtr → vec3 → FramePtr → Mem → vec3 :=
  λ _ d _ _, mkvec3 0 (vy d) (vz d).

(** ** Sequences of calls *)

(** A call of one of the mutators whose body is in the header, with its
    argument. *)
Inductive Call : Type :=
  | CallSetTranslation (translation : vec3)
  | CallSetRotation (rotation : quat)
  | CallSetConstraint (c : option ConstraintPtr)
  | CallAddObserver (obs : ObserverPtr)
  | CallRemoveObserver (obs : ObserverPtr).

Definition call (this : FramePtr) (c : Call) : M unit :=
  match c with
  | CallSetTranslation t => setTranslation this t
  | CallSetRotation q => setRotation this q
  | CallSetConstraint c => setConstraint this c
  | CallAddObserver obs => addObserver this obs
  | CallRemoveObserver obs => removeObserver this obs
  end.

(** A client that makes the calls of a list one after the other, each on
    the frame it names. *)
Fixpoint calls (l : list (FramePtr * Call)) : M unit :=
  match l with
  | [] => mret tt
  | (this, c) :: l' => call this c ;; calls l'
  end.

(** The calls whose body ends in [frameModified()], and the calls that do
    not touch [observers_]. *)
Definition notifies (c : Call) : bool :=
  match c with
  | CallSetTranslation _ | CallSetRotation _ => true
  | _ => false
  end.
Definition keeps_observers (c : Call) : bool :=
  match c with
  | CallAddObserver _ | CallRemoveObserver _ => false
  | _ => true
  end.

(** The data members of [*this] after a call. *)
Definition after_call (c : Call) (F : Frame) : Frame :=
  match c with
  | CallSetTranslation t => set_t_ t F
  | CallSetRotation q => set_q_ q F
  | CallSetConstraint c => set_constraint_ c F
  | CallAddObserver obs => set_observers_ ({[obs]} ∪ observers_ F) F
  | CallRemoveObserver obs => set_observers_ (observers_ F ∖ {[obs]}) F
  end.

(** The argument of the last [setTranslation] (of the last [setRotation])
    in a list of calls, [t0] ([q0]) when there is none. *)
Definition last_translation (t0 : vec3) (cs : list Call) : vec3 :=
  foldl (λ t c, match c with CallSetTranslation t' => t' | _ => t end) t0 cs.
Definition last_rotation (q0 : quat) (cs : list Call) : quat :=
  foldl (λ q c, match c with CallSetRotation q' => q' | _ => q end) q0 cs.

(** ** Proof automation *)

(** Polynomial identities in the components of a unit quaternion: [ring]
    reduces them with the equation [Hd] for the square of the scalar
    part. *)
Ltac quat_ring Hd :=
  unfold inverse_rotate, inverse, rotate, vdot; simpl;
  first [ ring [Hd] | f_equal; ring [Hd] ].

(** Equalities of observer sets, element by element. *)
Ltac by_elements :=
  apply set_eq; intros ?;
  rewrite ?elem_of_difference, ?elem_of_union, ?elem_of_difference,
    ?elem_of_singleton;
  intuition congruence.

(** * Properties *)

(** ** Quaternions and vectors *)

Lemma qnorm2_nonneg (q : quat) : 0 <= qnorm2 q.
Proof. unfold qnorm2. nra. Qed.

Lemma is_unit_qnorm2 (q : quat) : is_unit q ↔ qnorm2 q = 1.
Proof.
  unfold is_unit, qnorm. split; intros H.
  - rewrite <- (sqrt_sqrt (qnorm2 q)) by apply qnorm2_nonneg.
    rewrite H. lra.
  - rewrite H. apply sqrt_1.
Qed.

Lemma qnorm2_inverse (q : quat) : qnorm2 (inverse q) = qnorm2 q.
Proof. unfold qnorm2, inverse. simpl. ring. Qed.

Lemma is_unit_inverse (q : quat) : is_unit q → is_unit (inverse q).
Proof. rewrite !is_unit_qnorm2, qnorm2_inverse. auto. Qed.

Lemma qnorm2_qmul (a b : quat) : qnorm2 (qmul a b) = qnorm2 a * qnorm2 b.
Proof. unfold qnorm2, qmul. simpl. ring. Qed.

Lemma is_unit_qmul (a b : quat) : is_unit a → is_unit b → is_unit (qmul a b).
Proof.
  rewrite !is_unit_qnorm2, qnorm2_qmul. intros -> ->. lra.
Qed.

Lemma is_unit_qidentity : is_unit qidentity.
Proof. apply is_unit_qnorm2. unfold qnorm2, qidentity. simpl. lra. Qed.

(** On a unit quaternion the square of the scalar part is determined by
    the vector part. *)
Lemma unit_scalar_part (a b c d : R) :
  is_unit (mkquat a b c d) → d * d = 1 - a * a - b * b - c * c.
Proof.
  intros H. apply is_unit_qnorm2 in H. unfold qnorm2 in H. simpl in H. lra.
Qed.

Lemma inverse_rotate_rotate (q : quat) (v : vec3) :
  is_unit q → inverse_rotate q (rotate q v) = v.
Proof.
  destruct q as [a b c d], v as [x y z].
  intros Hd%unit_scalar_part. quat_ring Hd.
Qed.

Lemma rotate_inverse_rotate (q : quat) (v : vec3) :
  is_unit q → rotate q (inverse_rotate q v) = v.
Proof.
  destruct q as [a b c d], v as [x y z].
  intros Hd%unit_scalar_part. quat_ring Hd.
Qed.

Lemma vdot_rotate (q : quat) (v : vec3) :
  is_unit q → vdot (rotate q v) (rotate q v) = vdot v v.
Proof.
  destruct q as [a b c d], v as [x y z].
  intros Hd%unit_scalar_part. quat_ring Hd.
Qed.

Lemma vlength_rotate (q : quat) (v : vec3) :
  is_unit q → vlength (rotate q v) = vlength v.
Proof. intros H. unfold vlength. by rewrite vdot_rotate. Qed.

Lemma vlength_inverse_rotate (q : quat) (v : vec3) :
  is_unit q → vlength (inverse_rotate q v) = vlength v.
Proof. intros H. apply vlength_rotate, is_unit_inverse, H. Qed.

Lemma rotate_qidentity (v : vec3) : rotate qidentity v = v.
Proof. destruct v. unfold rotate, qidentity. simpl. f_equal; ring. Qed.

Lemma vadd_vsub (a b : vec3) : vadd (vsub a b) b = a.
Proof. destruct a, b. unfold vadd, vsub. simpl. f_equal; ring. Qed.


Lemma vadd_vzero (a : vec3) : vadd a vzero = a.
Proof. destruct a. unfold vadd, vzero. simpl. f_equal; ring. Qed.

Lemma vadd_vneg_cancel (a b : vec3) : vadd (vadd a b) (vneg a) = b.
Proof. destruct a, b. unfold vadd, vneg. simpl. f_equal; ring. Qed.

Lemma rotate_qmul (a b : quat) (v : vec3) :
  is_unit a → is_unit b → rotate (qmul a b) v = rotate a (rotate b v).
Proof.
  destruct a as [a0 a1 a2 a3], b as [b0 b1 b2 b3], v as [x y z].
  intros Ha%unit_scalar_part Hb%unit_scalar_part.
  unfold rotate, qmul. simpl. f_equal; ring [Ha Hb].
Qed.

Lemma rotate_vadd (q : quat) (a b : vec3) :
  rotate q (vadd a b) = vadd (rotate q a) (rotate q b).
Proof. destruct a, b. unfold rotate, vadd. simpl. f_equal; ring. Qed.

Lemma rotate_vzero (q : quat) : rotate q vzero = vzero.
Proof. unfold rotate, vzero. simpl. f_equal; ring. Qed.

Lemma vadd_comm (a b : vec3) : vadd a b = vadd b a.
Proof. destruct a, b. unfold vadd. simpl. f_equal; ring. Qed.

Lemma vadd_assoc (a b c : vec3) : vadd (vadd a b) c = vadd a (vadd b c).
Proof. destruct a, b, c. unfold vadd. simpl. f_equal; ring. Qed.

(** ** Running member functions *)

Lemma assign_eq (this : FramePtr) (f : Frame → Frame) (m : Mem) (F : Frame) :
  frames m !! this = Some F →
  assign this f m = Some (tt, mkMem (<[this := f F]> (frames m)) (notified m)).
Proof. intros H. unfold assign. by rewrite H. Qed.

Lemma const_method_eq {A : Type} (f : gmap FramePtr Frame → Frame → option A)
    (this : FramePtr) (m : Mem) (F : Frame) (a : A) :
  frames m !! this = Some F → f (frames m) F = Some a →
  const_method f this m = Some (a, m).
Proof. intros H Ha. unfold const_method. rewrite H. simpl. by rewrite Ha. Qed.

Lemma const_method_inv {A : Type} (f : gmap FramePtr Frame → Frame → option A)
    (this : FramePtr) (m m' : Mem) (a : A) :
  const_method f this m = Some (a, m') →
  m' = m ∧ ∃ F, frames m !! this = Some F ∧ f (frames m) F = Some a.
Proof.
  unfold const_method. destruct (frames m !! this) as [F|] eqn:HF; [|done].
  simpl. destruct (f (frames m) F) as [b|] eqn:Hb; [|done].
  simpl. intros [= <- <-]. eauto.
Qed.

(** A setter of one data member followed by [frameModified()]. *)
Lemma assign_frameModified (this : FramePtr) (f : Frame → Frame) (m : Mem)
    (F : Frame) :
  frames m !! this = Some F → observers_ (f F) = observers_ F →
  (assign this f ;; frameModified this) m
  = Some (tt, mkMem (<[this := f F]> (frames m))
                    (notified m ++ elements (observers_ F))).
Proof.
  intros H Ho. unfold mbind, M_bind. rewrite (assign_eq _ _ _ F H).
  unfold frameModified. simpl. rewrite lookup_insert_eq. simpl.
  by rewrite Ho.
Qed.

Lemma setTranslation_eq (this : FramePtr) (t : vec3) (m : Mem) (F : Frame) :
  frames m !! this = Some F →
  setTranslation this t m
  = Some (tt, mkMem (<[this := set_t_ t F]> (frames m))
                    (notified m ++ elements (observers_ F))).
Proof. intros H. by apply assign_frameModified. Qed.

Lemma setRotation_eq (this : FramePtr) (q : quat) (m : Mem) (F : Frame) :
  frames m !! this = Some F →
  setRotation this q m
  = Some (tt, mkMem (<[this := set_q_ q F]> (frames m))
                    (notified m ++ elements (observers_ F))).
Proof. intros H. by apply assign_frameModified. Qed.

Lemma translation_eq (this : FramePtr) (m : Mem) (F : Frame) :
  frames m !! this = Some F → translation this m = Some (t_ F, m).
Proof. intros H. by apply const_method_eq with (F := F). Qed.

Lemma rotation_eq (this : FramePtr) (m : Mem) (F : Frame) :
  frames m !! this = Some F → rotation this m = Some (q_ F, m).
Proof. intros H. by apply const_method_eq with (F := F). Qed.

(** ** Counting notifications *)

Lemma notifications_app (o : ObserverPtr) (l1 l2 : list ObserverPtr) :
  notifications o (l1 ++ l2) = (notifications o l1 + notifications o l2)%nat.
Proof. unfold notifications. by rewrite filter_app, length_app. Qed.

Lemma notifications_absent (o : ObserverPtr) (l : list ObserverPtr) :
  o ∉ l → notifications o l = 0%nat.
Proof.
  unfold notifications. induction l as [|x l IH]; [done|].
  intros Hn. apply not_elem_of_cons in Hn as [Hx Hl].
  rewrite filter_cons_False by congruence. auto.
Qed.

Lemma notifications_NoDup (o : ObserverPtr) (l : list ObserverPtr) :
  NoDup l → o ∈ l → notifications o l = 1%nat.
Proof.
  induction 1 as [|x l Hx Hl IH]; [by intros ?%elem_of_nil|].
  intros Ho. unfold notifications. destruct (decide (x = o)) as [->|Hne].
  - rewrite filter_cons_True by done. simpl.
    f_equal. by apply notifications_absent.
  - rewrite filter_cons_False by done.
    apply IH. apply elem_of_cons in Ho as [->|]; [done|assumption].
Qed.

(** One pass over a [std::set] reaches each member once and nobody else. *)
Lemma notifications_elements (o : ObserverPtr) (X : gset ObserverPtr) :
  notifications o (elements X) = if decide (o ∈ X) then 1%nat else 0%nat.
Proof.
  case_decide as Ho.
  - apply notifications_NoDup; [apply NoDup_elements|by apply elem_of_elements].
  - apply notifications_absent. by rewrite elem_of_elements.
Qed.

(** ** The observer set *)

Lemma insert_twice (obs : ObserverPtr) (X : gset ObserverPtr) :
  {[obs]} ∪ ({[obs]} ∪ X) = {[obs]} ∪ X.
Proof. by rewrite (assoc_L (∪)), union_idemp_L. Qed.

Lemma erase_absent (obs : ObserverPtr) (X : gset ObserverPtr) :
  obs ∉ X → X ∖ {[obs]} = X.
Proof. intros H. by apply difference_disjoint_L, disjoint_singleton_r. Qed.

(** ** The setters of the header *)

(** C7.  [setTranslation(t)] overwrites the local translation with [t]
    whatever the frame's constraint and reference frame are, so that
    [translation()] then returns exactly [t], changes nothing else of the
    frame, and notifies each current observer exactly once and nobody
    else; [setRotation(q)] does the same with the local rotation. *)
Theorem setTranslation_setRotation_overwrite_and_notify_once
    (this : FramePtr) (m : Mem) (F : Frame) :
  frames m !! this = Some F →
  (∀ t : vec3, ∃ m',
      setTranslation this t m = Some (tt, m')
      ∧ translation this m' = Some (t, m')
      ∧ frames m' = <[this := set_t_ t F]> (frames m)
      ∧ ∀ o, notifications o (notified m')
             = (notifications o (notified m)
                + if decide (o ∈ observers_ F) then 1 else 0)%nat)
  ∧ (∀ q : quat, ∃ m',
      setRotation this q m = Some (tt, m')
      ∧ rotation this m' = Some (q, m')
      ∧ frames m' = <[this := set_q_ q F]> (frames m)
      ∧ ∀ o, notifications o (notified m')
             = (notifications o (notified m)
                + if decide (o ∈ observers_ F) then 1 else 0)%nat).
Proof.
  intros HF. split.
  - intros t. eexists. split; [by apply setTranslation_eq|].
    split; [|split; [done|]].
    + apply (translation_eq _ _ (set_t_ t F)). simpl. apply lookup_insert_eq.
    + intros o. simpl. by rewrite notifications_app, notifications_elements.
  - intros q. eexists. split; [by apply setRotation_eq|].
    split; [|split; [done|]].
    + apply (rotation_eq _ _ (set_q_ q F)). simpl. apply lookup_insert_eq.
    + intros o. simpl. by rewrite notifications_app, notifications_elements.
Qed.

Lemma setTranslation_setRotation_overwrite_and_notify_once_witness :
  frames busy_mem !! 1%positive = Some busy_frame
  ∧ ∃ m', setTranslation 1%positive (mkvec3 7 8 9) busy_mem = Some (tt, m')
          ∧ translation 1%positive m' = Some (mkvec3 7 8 9, m')
          ∧ notifications 5%positive (notified m') = 2%nat
          ∧ notifications 6%positive (notified m') = 1%nat
          ∧ notifications 7%positive (notified m') = 0%nat.
Proof.
  assert (H : frames busy_mem !! 1%positive = Some busy_frame)
    by (vm_compute; reflexivity).
  split; [exact H|].
  destruct (setTranslation_setRotation_overwrite_and_notify_once
              1%positive busy_mem busy_frame H) as [Ht _].
  destruct (Ht (mkvec3 7 8 9)) as (m' & Hs & Hg & _ & Hn).
  exists m'. split; [exact Hs|]. split; [exact Hg|].
  rewrite !Hn. vm_compute. auto.
Defined.

(** C10.  [setConstraint] changes only the constraint pointer, and
    [addObserver] and [removeObserver] only the observer set: translation,
    rotation and reference frame stay, no other frame changes and nobody
    is notified.  Adding an observer twice leaves the set as adding it
    once does, and removing an observer that is not in the set changes
    nothing at all. *)
Theorem setConstraint_addObserver_removeObserver_frame
    (this : FramePtr) (m : Mem) (F : Frame) :
  frames m !! this = Some F →
  (∀ c, setConstraint this c m
        = Some (tt, mkMem (<[this := mkFrame (observers_ F) (t_ F) (q_ F) c
                                       (referenceFrame_ F)]> (frames m))
                          (notified m)))
  ∧ (∀ obs, addObserver this obs m
        = Some (tt, mkMem (<[this := mkFrame ({[obs]} ∪ observers_ F) (t_ F)
                                       (q_ F) (constraint_ F)
                                       (referenceFrame_ F)]> (frames m))
                          (notified m)))
  ∧ (∀ obs, removeObserver this obs m
        = Some (tt, mkMem (<[this := mkFrame (observers_ F ∖ {[obs]}) (t_ F)
                                       (q_ F) (constraint_ F)
                                       (referenceFrame_ F)]> (frames m))
                          (notified m)))
  ∧ (∀ obs, (addObserver this obs ;; addObserver this obs) m
            = addObserver this obs m)
  ∧ (∀ obs, obs ∉ observers_ F → removeObserver this obs m = Some (tt, m)).
Proof.
  intros HF. repeat split.
  - intros c. unfold setConstraint. by rewrite (assign_eq _ _ _ F HF).
  - intros obs. unfold addObserver. by rewrite (assign_eq _ _ _ F HF).
  - intros obs. unfold removeObserver. by rewrite (assign_eq _ _ _ F HF).
  - intros obs. unfold mbind, M_bind, addObserver.
    rewrite (assign_eq _ _ _ F HF). unfold assign. simpl.
    rewrite lookup_insert_eq. simpl. rewrite insert_insert_eq.
    unfold set_observers_. simpl. by rewrite insert_twice.
  - intros obs Hobs. unfold removeObserver. rewrite (assign_eq _ _ _ F HF).
    destruct m as [fs log]. simpl in *. do 3 f_equal.
    apply insert_id. rewrite HF. f_equal.
    destruct F as [os t q c r]. unfold set_observers_. simpl in *.
    by rewrite erase_absent.
Qed.

Lemma setConstraint_addObserver_removeObserver_frame_witness :
  frames busy_mem !! 1%positive = Some busy_frame
  ∧ (addObserver 1%positive 5%positive busy_mem = Some (tt, busy_mem))
  ∧ removeObserver 1%positive 7%positive busy_mem = Some (tt, busy_mem).
Proof.
  assert (H : frames busy_mem !! 1%positive = Some busy_frame)
    by (vm_compute; reflexivity).
  split; [exact H|].
  destruct (setConstraint_addObserver_removeObserver_frame
              1%positive busy_mem busy_frame H) as (_ & Ha & _ & _ & Hr).
  split.
  - rewrite Ha. vm_compute. reflexivity.
  - apply Hr. unfold busy_frame. simpl.
    rewrite elem_of_union, !elem_of_singleton. intros [|]; discriminate.
Defined.

(** ** The rotation that [setRotation] stores *)

(** [setRotation] does not normalise: given the quaternion [(0, 0, 0, 2)]
    of norm 2 it stores it, and [rotation()] returns it; given the zero
    quaternion it stores that one. *)
Lemma setRotation_stores_non_unit :
  (∃ m', setRotation 1%positive (mkquat 0 0 0 2) one_frame = Some (tt, m')
         ∧ rotation 1%positive m' = Some (mkquat 0 0 0 2, m')
         ∧ qnorm (mkquat 0 0 0 2) = 2
         ∧ ¬ is_unit (mkquat 0 0 0 2))
  ∧ (∃ m', setRotation 1%positive (mkquat 0 0 0 0) one_frame = Some (tt, m')
           ∧ rotation 1%positive m' = Some (mkquat 0 0 0 0, m')
           ∧ qnorm (mkquat 0 0 0 0) = 0).
Proof.
  split.
  - eexists. split; [vm_compute; reflexivity|].
    split; [vm_compute; reflexivity|].
    assert (Hn : qnorm (mkquat 0 0 0 2) = 2).
    { unfold qnorm, qnorm2. simpl.
      replace (0 * 0 + 0 * 0 + 0 * 0 + 2 * 2) with (2 * 2) by ring.
      apply sqrt_square. lra. }
    split; [exact Hn|]. unfold is_unit. rewrite Hn. lra.
  - eexists. split; [vm_compute; reflexivity|].
    split; [vm_compute; reflexivity|].
    unfold qnorm, qnorm2. simpl.
    replace (0 * 0 + 0 * 0 + 0 * 0 + 0 * 0) with 0 by ring.
    apply sqrt_0.
Qed.

(** C1, amended.  [setRotation(q)] stores [q] as it is given: afterwards
    [rotation()] returns exactly [q], so the stored rotation is a unit
    quaternion if and only if [q] is one. *)
Theorem setRotation_stores_rotation_as_given
    (this : FramePtr) (q : quat) (m : Mem) (F : Frame) :
  frames m !! this = Some F →
  ∃ m', setRotation this q m = Some (tt, m')
        ∧ rotation this m' = Some (q, m')
        ∧ ∀ r m'', rotation this m' = Some (r, m'') → (is_unit r ↔ is_unit q).
Proof.
  intros HF. eexists. split; [by apply setRotation_eq|].
  assert (Hg : ∀ m', frames m' = <[this := set_q_ q F]> (frames m) →
                     rotation this m' = Some (q, m')).
  { intros m' Hm'. apply (rotation_eq _ _ (set_q_ q F)).
    rewrite Hm'. apply lookup_insert_eq. }
  split; [by apply Hg|].
  intros r m'' Hr. rewrite Hg in Hr by done. by injection Hr as <- _.
Qed.

Lemma setRotation_stores_rotation_as_given_witness :
  frames busy_mem !! 1%positive = Some busy_frame
  ∧ ∃ m', setRotation 1%positive (mkquat 0 1 0 0) busy_mem = Some (tt, m')
          ∧ rotation 1%positive m' = Some (mkquat 0 1 0 0, m').
Proof.
  assert (H : frames busy_mem !! 1%positive = Some busy_frame)
    by (vm_compute; reflexivity).
  split; [exact H|].
  destruct (setRotation_stores_rotation_as_given
              1%positive (mkquat 0 1 0 0) busy_mem busy_frame H)
    as (m' & Hs & Hg & _).
  exists m'. split; [exact Hs|exact Hg].
Defined.
(** ** Conversions and their inverses *)

Lemma ancestry_head (n : nat) (s : gmap FramePtr Frame) (F : Frame)
    (l : list Frame) :
  ancestry n s F = Some l → ∃ l', l = F :: l'.
Proof.
  destruct n; simpl; destruct (referenceFrame_ F) as [r|];
    try discriminate; try (intros [= <-]; eauto).
  destruct (s !! r) as [P|]; [|done]. simpl.
  destruct (ancestry n s P) as [l'|]; [|done]. simpl.
  intros [= <-]. eauto.
Qed.

Lemma unit_chain_head (n : nat) (s : gmap FramePtr Frame) (F : Frame) :
  unit_chain n s F → is_unit (q_ F).
Proof.
  intros (l & Hl & Hu). destruct (ancestry_head _ _ _ _ Hl) as [l' ->].
  by inversion Hu.
Qed.

(** What a walk needs from the reference frame when there is one. *)
Lemma unit_chain_parent (n : nat) (s : gmap FramePtr Frame) (F : Frame)
    (r : FramePtr) :
  unit_chain n s F → referenceFrame_ F = Some r →
  ∃ k P, n = S k ∧ s !! r = Some P ∧ unit_chain k s P.
Proof.
  intros (l & Hl & Hu) Hr. destruct n as [|k]; simpl in Hl; rewrite Hr in Hl;
    [done|].
  destruct (s !! r) as [P|]; [|done]. simpl in Hl.
  destruct (ancestry k s P) as [l'|] eqn:Hl'; [|done]. simpl in Hl.
  injection Hl as <-. inversion Hu; subst.
  exists k, P. repeat split; try done. by exists l'.
Qed.

Section RoundTrip.

(** One level down and one level up that undo each other on a frame with
    a unit rotation. *)
Variables down up : Frame → vec3 → vec3.
Hypothesis up_down : ∀ F v, is_unit (q_ F) → up F (down F v) = v.
Hypothesis down_up : ∀ F v, is_unit (q_ F) → down F (up F v) = v.







End RoundTrip.





Lemma ancestry_more_fuel (n : nat) (s : gmap FramePtr Frame) :
  ∀ (F : Frame) (l : list Frame) (n' : nat),
  ancestry n s F = Some l → (n ≤ n')%nat → ancestry n' s F = Some l.
Proof.
  induction n as [|k IH]; intros F l n' Hl Hn; simpl in Hl;
    destruct (referenceFrame_ F) as [r|] eqn:Hr; try done.
  - destruct n'; simpl; by rewrite Hr.
  - destruct n' as [|k']; [lia|]. simpl. rewrite Hr.
    destruct (s !! r) as [P|]; [|done]. simpl in *.
    destruct (ancestry k s P) as [l'|] eqn:Hl'; [|done].
    rewrite (IH P l' k') by (done || lia). done.
  - destruct n'; simpl; by rewrite Hr.
Qed.

Lemma unit_chain_more_fuel (n n' : nat) (s : gmap FramePtr Frame) (F : Frame) :
  unit_chain n s F → (n ≤ n')%nat → unit_chain n' s F.
Proof.
  intros (l & Hl & Hu) Hn. exists l. split; [|done].
  by apply ancestry_more_fuel with (n := n).
Qed.

(** ** Vectors: rotation only *)







(** ** Round trips *)

Lemma tower_4_unit_chain : unit_chain 3 tower tower_4.
Proof.
  exists [tower_4; tower_3; tower_2; tower_1]. split; [reflexivity|].
  repeat constructor; apply is_unit_qnorm2; unfold qnorm2; simpl; lra.
Qed.








(** ** The hierarchy *)

(** The walk of [settingAsReferenceFrameWillCreateALoop] decides
    membership in the chain it walks. *)
Lemma loop_walk_decides (n : nat) (s : gmap FramePtr Frame) (this : FramePtr) :
  ∀ (frame : option FramePtr) (l : list FramePtr),
  chainFrom n s frame = Some l →
  settingAsReferenceFrameWillCreateALoop n s this frame
  = Some (bool_decide (this ∈ l)).
Proof.
  induction n as [|k IH]; intros [f|] l; simpl; try done.
  - by intros [= <-].
  - destruct (s !! f) as [F|]; [|done]. simpl.
    destruct (chainFrom k s (referenceFrame_ F)) as [l'|] eqn:Hl'; [|done].
    simpl. intros [= <-]. case_decide as Hf.
    + subst f. by rewrite bool_decide_eq_true_2 by apply list_elem_of_here.
    + rewrite (IH _ l' Hl'). f_equal. apply bool_decide_ext.
      rewrite elem_of_cons. split; [by right|].
      intros [E|E]; [by subst f|exact E].
  - by intros [= <-].
Qed.

Lemma chainFrom_head (n : nat) (s : gmap FramePtr Frame) (f : FramePtr)
    (l : list FramePtr) :
  chainFrom n s (Some f) = Some l → ∃ l', l = f :: l'.
Proof.
  destruct n; simpl; [done|]. destruct (s !! f) as [F|]; [|done]. simpl.
  destruct (chainFrom n s (referenceFrame_ F)) as [l'|]; [|done]. simpl.
  intros [= <-]. eauto.
Qed.

(** C5.  When the chain of reference frames that starts at the candidate
    ends, [settingAsReferenceFrameWillCreateALoop(candidate)] returns, and
    it returns true if and only if the receiving frame is on that chain:
    the candidate, its reference frame, the reference frame of that one
    and so on.  The candidate being the receiving frame is such a case. *)
Theorem settingAsReferenceFrameWillCreateALoop_iff_on_chain
    (n : nat) (s : gmap FramePtr Frame) (this : FramePtr)
    (c : option FramePtr) (l : list FramePtr) :
  chainFrom n s c = Some l →
  ∃ b, settingAsReferenceFrameWillCreateALoop n s this c = Some b
       ∧ (b = true ↔ this ∈ l)
       ∧ (c = Some this → b = true).
Proof.
  intros Hl. exists (bool_decide (this ∈ l)).
  split; [by apply loop_walk_decides|].
  split; [apply bool_decide_eq_true|].
  intros ->. destruct (chainFrom_head _ _ _ _ Hl) as [l' ->].
  apply bool_decide_eq_true_2, list_elem_of_here.
Qed.

Lemma setReferenceFrame_rejected (n : nat) (this : FramePtr)
    (f : option FramePtr) (m : Mem) :
  settingAsReferenceFrameWillCreateALoop n (frames m) this f = Some true →
  setReferenceFrame n this f m = Some (tt, m).
Proof. intros H. unfold setReferenceFrame. by rewrite H. Qed.

(** C4.  When [settingAsReferenceFrameWillCreateALoop(f)] is true,
    [setReferenceFrame(f)] returns with the memory as it was: no frame has
    its reference frame, translation or rotation changed and no observer
    is notified.  This is the case whenever the receiving frame is on the
    chain of reference frames that starts at [f]; then every frame still
    has the reference frame it had. *)
Theorem setReferenceFrame_loop_is_silent_no_op
    (n : nat) (this : FramePtr) (f : option FramePtr) (m : Mem) :
  (settingAsReferenceFrameWillCreateALoop n (frames m) this f = Some true →
   setReferenceFrame n this f m = Some (tt, m))
  ∧ (∀ l, chainFrom n (frames m) f = Some l → this ∈ l →
          ∃ m', setReferenceFrame n this f m = Some (tt, m')
                ∧ notified m' = notified m
                ∧ frames m' = frames m
                ∧ ∀ a, referenceFrame a m' = referenceFrame a m).
Proof.
  split; [apply setReferenceFrame_rejected|].
  intros l Hl Hin. exists m. split; [|done].
  apply setReferenceFrame_rejected.
  rewrite (loop_walk_decides _ _ _ _ _ Hl).
  by rewrite bool_decide_eq_true_2.
Qed.

Lemma setReferenceFrame_loop_is_silent_no_op_witness :
  chainFrom 4 tower (Some 4%positive)
  = Some [4%positive; 3%positive; 2%positive; 1%positive]
  ∧ ∃ m', setReferenceFrame 4 1%positive (Some 4%positive) (mkMem tower [])
          = Some (tt, m')
          ∧ notified m' = []
          ∧ frames m' = tower.
Proof.
  assert (H : chainFrom 4 tower (Some 4%positive)
              = Some [4%positive; 3%positive; 2%positive; 1%positive])
    by reflexivity.
  split; [exact H|].
  destruct (setReferenceFrame_loop_is_silent_no_op 4 1%positive
              (Some 4%positive) (mkMem tower [])) as [_ Hc].
  destruct (Hc _ H) as (m' & Hs & Hn & Hf & _).
  - rewrite !elem_of_cons. auto.
  - exists m'. split; [exact Hs|]. split; [exact Hn|exact Hf].
Defined.

Lemma settingAsReferenceFrameWillCreateALoop_iff_on_chain_witness :
  chainFrom 4 tower (Some 4%positive)
  = Some [4%positive; 3%positive; 2%positive; 1%positive]
  ∧ ∃ b, settingAsReferenceFrameWillCreateALoop 4 tower 5%positive
           (Some 4%positive) = Some b
         ∧ (b = true ↔ 5%positive ∈ [4%positive; 3%positive; 2%positive;
                                      1%positive]).
Proof.
  assert (H : chainFrom 4 tower (Some 4%positive)
              = Some [4%positive; 3%positive; 2%positive; 1%positive])
    by reflexivity.
  split; [exact H|].
  destruct (settingAsReferenceFrameWillCreateALoop_iff_on_chain 4 tower
              5%positive (Some 4%positive) _ H) as (b & Hb & Hiff & _).
  exists b. split; [exact Hb|exact Hiff].
Defined.

(** ** World position and orientation *)

Lemma orientation_position_defined (n : nat) (s : gmap FramePtr Frame) :
  ∀ (F : Frame) (l : list Frame), ancestry n s F = Some l →
  ∃ o p, orientation n s F = Some o ∧ position n s F = Some p.
Proof.
  induction n as [|k IH]; intros F l; simpl;
    destruct (referenceFrame_ F) as [r|]; try done; eauto.
  destruct (s !! r) as [P|]; [|done]. simpl.
  destruct (ancestry k s P) as [l'|] eqn:Hl'; [|done]. intros _.
  destruct (IH P l' Hl') as (o & p & -> & ->). simpl. eauto.
Qed.

Lemma orientation_root (n : nat) (s : gmap FramePtr Frame) (F : Frame) :
  referenceFrame_ F = None → orientation n s F = Some (q_ F).
Proof. intros H. destruct n; simpl; by rewrite H. Qed.

Lemma position_root (n : nat) (s : gmap FramePtr Frame) (F : Frame) :
  referenceFrame_ F = None → position n s F = Some (t_ F).
Proof. intros H. destruct n; simpl; by rewrite H. Qed.

(** For a chain of unit rotations the models of [position()],
    [orientation()] and [inverseCoordinatesOf] agree: the world image of a
    point of the frame is its image by the world orientation, moved to the
    world position; the world position is the image of the origin. *)
Lemma inverseCoordinatesOf_position_orientation (n : nat)
    (s : gmap FramePtr Frame) :
  ∀ F : Frame, unit_chain n s F →
  ∃ o p, orientation n s F = Some o ∧ is_unit o
         ∧ position n s F = Some p
         ∧ ∀ v, inverseCoordinatesOf n s F v = Some (vadd p (rotate o v)).
Proof.
  unfold inverseCoordinatesOf.
  induction n as [|k IH]; intros F HF;
    pose proof (unit_chain_head _ _ _ HF) as Hu;
    destruct (referenceFrame_ F) as [r|] eqn:Hr.
  - by destruct (unit_chain_parent _ _ _ _ HF Hr) as (? & ? & ? & _).
  - exists (q_ F), (t_ F). simpl. rewrite Hr. repeat split; try done.
    intros v. unfold localInverseCoordinatesOf. by rewrite vadd_comm.
  - destruct (unit_chain_parent _ _ _ _ HF Hr) as (k' & P & [= <-] & HP & HPu).
    destruct (IH P HPu) as (o & p & Ho & Huo & Hp & Hv).
    exists (qmul o (q_ F)), (vadd p (rotate o (t_ F))).
    simpl. rewrite Hr, HP. simpl. rewrite Ho, Hp. simpl.
    repeat split; try done; [by apply is_unit_qmul|].
    intros v. rewrite Hv. unfold localInverseCoordinatesOf.
    rewrite rotate_vadd, rotate_qmul by done.
    by rewrite vadd_assoc, (vadd_comm (rotate o (t_ F))).
  - exists (q_ F), (t_ F). simpl. rewrite Hr. repeat split; try done.
    intros v. unfold localInverseCoordinatesOf. by rewrite vadd_comm.
Qed.

Lemma position_is_image_of_origin (n : nat) (s : gmap FramePtr Frame)
    (F : Frame) :
  unit_chain n s F → position n s F = inverseCoordinatesOf n s F vzero.
Proof.
  intros HF.
  destruct (inverseCoordinatesOf_position_orientation n s F HF)
    as (o & p & _ & _ & -> & Hv).
  by rewrite Hv, rotate_vzero, vadd_vzero.
Qed.

(** X10.  The frame that [worldInverse()] returns is the inverse of the
    world transformation: it takes the world image of a point of the
    original frame back to that point. *)
Lemma worldInverse_undoes_world_transform (n : nat) (s : gmap FramePtr Frame)
    (F G : Frame) (x w : vec3) :
  unit_chain n s F → worldInverse n s F = Some G →
  inverseCoordinatesOf n s F x = Some w →
  ∀ k s', inverseCoordinatesOf k s' G w = Some x.
Proof.
  intros HF HG Hw k s'.
  destruct (inverseCoordinatesOf_position_orientation n s F HF)
    as (o & p & Ho & Hu & Hp & Hv).
  unfold worldInverse in HG. rewrite Ho, Hp in HG. simpl in HG.
  injection HG as <-. rewrite Hv in Hw. injection Hw as <-.
  unfold inverseCoordinatesOf. destruct k; simpl; f_equal;
    unfold localInverseCoordinatesOf; simpl;
    fold (inverse_rotate o (vadd p (rotate o x)));
    unfold inverse_rotate; rewrite rotate_vadd;
    fold (inverse_rotate o (rotate o x)); fold (inverse_rotate o p);
    by rewrite inverse_rotate_rotate, vadd_vneg_cancel.
Qed.

(** C8.  For a frame whose chain of reference frames ends,
    [worldInverse()] returns a frame and leaves the memory, and so the
    original frame, as it was.  The orientation of the returned frame is
    the inverse of the original world orientation, its position is the
    negated, inverse-rotated image of the original world position, and its
    reference frame and its constraint are null. *)
Theorem worldInverse_of_world_position_and_orientation
    (n : nat) (this : FramePtr) (m : Mem) (F : Frame) (l : list Frame) :
  frames m !! this = Some F → ancestry n (frames m) F = Some l →
  ∃ o p G,
    orientation n (frames m) F = Some o
    ∧ position n (frames m) F = Some p
    ∧ const_method (worldInverse n) this m = Some (G, m)
    ∧ (∀ k s, orientation k s G = Some (inverse o))
    ∧ (∀ k s, position k s G = Some (vneg (inverse_rotate o p)))
    ∧ referenceFrame_ G = None
    ∧ constraint_ G = None.
Proof.
  intros HF Hl.
  destruct (orientation_position_defined n _ F l Hl) as (o & p & Ho & Hp).
  exists o, p, (Frame_at (vneg (inverse_rotate o p)) (inverse o)).
  split; [exact Ho|]. split; [exact Hp|].
  split.
  { apply const_method_eq with (F := F); [exact HF|].
    unfold worldInverse. by rewrite Ho, Hp. }
  split; [intros k s; by apply orientation_root|].
  split; [intros k s; by apply position_root|]. done.
Qed.

Lemma worldInverse_of_world_position_and_orientation_witness :
  tower !! 4%positive = Some tower_4
  ∧ ancestry 3 tower tower_4 = Some [tower_4; tower_3; tower_2; tower_1]
  ∧ ∃ G, const_method (worldInverse 3) 4%positive (mkMem tower [])
         = Some (G, mkMem tower [])
         ∧ referenceFrame_ G = None ∧ constraint_ G = None.
Proof.
  assert (H1 : frames (mkMem tower []) !! 4%positive = Some tower_4)
    by reflexivity.
  assert (H2 : ancestry 3 (frames (mkMem tower [])) tower_4
               = Some [tower_4; tower_3; tower_2; tower_1]) by reflexivity.
  split; [exact H1|]. split; [exact H2|].
  destruct (worldInverse_of_world_position_and_orientation 3 4%positive
              (mkMem tower []) tower_4 _ H1 H2)
    as (o & p & G & _ & _ & HG & _ & _ & Hr & Hc).
  exists G. split; [exact HG|]. split; [exact Hr|exact Hc].
Defined.

(** The position of a frame whose reference frame is a root. *)
Lemma position_below_root (n : nat) (s : gmap FramePtr Frame) (a : FramePtr)
    (A B : Frame) :
  s !! a = Some A → referenceFrame_ A = None → referenceFrame_ B = Some a →
  position (S n) s B = Some (vadd (t_ A) (rotate (q_ A) (t_ B))).
Proof.
  intros HA HrA HrB. simpl. rewrite HrB, HA. simpl.
  by rewrite position_root, orientation_root.
Qed.

(** C6.  Let [A] be a frame without reference frame, at the origin and
    with the identity rotation, and [B] a frame with reference frame [A],
    local translation (1,0,0) and the identity rotation.  Then
    [B.position()] is (1,0,0); after [A.setTranslation((2,0,0))],
    [B.position()] is (3,0,0) and [B.translation()] is still (1,0,0). *)
Theorem position_recomposed_after_setTranslation
    (n : nat) (m : Mem) (a b : FramePtr) (A B : Frame) :
  a ≠ b → frames m !! a = Some A → frames m !! b = Some B →
  referenceFrame_ A = None → t_ A = vzero → q_ A = qidentity →
  referenceFrame_ B = Some a → t_ B = mkvec3 1 0 0 → q_ B = qidentity →
  const_method (position (S n)) b m = Some (mkvec3 1 0 0, m)
  ∧ ∃ m', setTranslation a (mkvec3 2 0 0) m = Some (tt, m')
          ∧ const_method (position (S n)) b m' = Some (mkvec3 3 0 0, m')
          ∧ translation b m' = Some (mkvec3 1 0 0, m').
Proof.
  intros Hab HA HB HrA HtA HqA HrB HtB HqB. split.
  - apply const_method_eq with (F := B); [exact HB|].
    rewrite (position_below_root n _ a A B) by done.
    rewrite HqA, rotate_qidentity, HtA, HtB. f_equal.
    unfold vadd, vzero. simpl. f_equal; ring.
  - eexists. split; [by apply setTranslation_eq|].
    assert (HB' : <[a := set_t_ (mkvec3 2 0 0) A]> (frames m) !! b = Some B)
      by by rewrite lookup_insert_ne.
    split.
    + apply const_method_eq with (F := B); [exact HB'|]. simpl frames.
      rewrite (position_below_root n _ a (set_t_ (mkvec3 2 0 0) A) B);
        [|apply lookup_insert_eq|done|done].
      simpl. rewrite HqA, rotate_qidentity, HtB. f_equal.
      unfold vadd. simpl. f_equal; ring.
    + rewrite <- HtB. by apply translation_eq.
Qed.

(** The sentence of the spec on [position()], read word for word, gives
    the same values in this scenario. *)
Lemma position_as_worded_scenario
    (n : nat) (s : gmap FramePtr Frame) (a b : FramePtr) (A B : Frame)
    (t : vec3) :
  a ≠ b → s !! a = Some A → referenceFrame_ A = None →
  referenceFrame_ B = Some a → t_ B = mkvec3 1 0 0 → q_ B = qidentity →
  position_as_worded (S n) (<[a := set_t_ t A]> s) B
  = Some (vadd t (mkvec3 1 0 0)).
Proof.
  intros Hab HA HrA HrB HtB HqB. simpl. rewrite HrB, lookup_insert_eq. simpl.
  assert (Hp : position_as_worded n (<[a:=set_t_ t A]> s) (set_t_ t A)
               = Some t) by (destruct n; simpl; by rewrite HrA).
  rewrite Hp. simpl. by rewrite HqB, rotate_qidentity, HtB.
Qed.

Lemma position_recomposed_after_setTranslation_witness :
  const_method (position 1) 2%positive two_frames
  = Some (mkvec3 1 0 0, two_frames)
  ∧ ∃ m', setTranslation 1%positive (mkvec3 2 0 0) two_frames = Some (tt, m')
          ∧ const_method (position 1) 2%positive m' = Some (mkvec3 3 0 0, m')
          ∧ translation 2%positive m' = Some (mkvec3 1 0 0, m').
Proof.
  apply (position_recomposed_after_setTranslation 0 two_frames
           1%positive 2%positive Frame_new
           (mkFrame ∅ (mkvec3 1 0 0) qidentity None (Some 1%positive)));
    (discriminate || reflexivity).
Defined.

(** ** Constrained translation *)

Section ConstrainedProperties.

Variable constrainTranslation : ConstraintPtr → vec3 → FramePtr → Mem → vec3.

Lemma filtered_eq (this : FramePtr) (t : vec3) (m : Mem) (F : Frame) :
  frames m !! this = Some F →
  filtered constrainTranslation this t m
  = Some (constrained constrainTranslation (constraint_ F) t this m, m).
Proof. intros H. unfold filtered. by rewrite H. Qed.

Lemma translate_eq (this : FramePtr) (t : vec3) (m : Mem) (F : Frame) :
  frames m !! this = Some F →
  translate constrainTranslation this t m
  = let t' := constrained constrainTranslation (constraint_ F) t this m in
    Some (t', mkMem (<[this := set_t_ (vadd (t_ F) t') F]> (frames m))
                    (notified m ++ elements (observers_ F))).
Proof.
  intros H. unfold translate, mbind, M_bind.
  rewrite (filtered_eq _ _ _ F H). unfold deref. rewrite H. simpl.
  rewrite (assign_eq _ _ _ F H).
  unfold frameModified. simpl. by rewrite lookup_insert_eq.
Qed.

Lemma setTranslationWithConstraint_eq (this : FramePtr) (t : vec3) (m : Mem)
    (F : Frame) :
  frames m !! this = Some F →
  setTranslationWithConstraint constrainTranslation this t m
  = let d := constrained constrainTranslation (constraint_ F)
               (vsub t (t_ F)) this m in
    Some (d, mkMem (<[this := set_t_ (vadd (t_ F) d) F]> (frames m))
                   (notified m ++ elements (observers_ F))).
Proof.
  intros H. unfold setTranslationWithConstraint, mbind, M_bind.
  unfold deref. rewrite H. simpl. rewrite (filtered_eq _ _ _ F H).
  by rewrite (setTranslation_eq _ _ _ F H).
Qed.

(** C9.  [translate] with a delta passed by reference and
    [setTranslationWithConstraint] first pass the proposed delta through
    the filter of the attached constraint, which is the identity when no
    constraint is attached; the filtered delta is what is added to the
    local translation, and it is the value of the argument at return.
    With a constraint that maps every delta along the first axis to zero,
    [translate] by such a delta leaves [translation()] as it was and
    writes back the zero delta. *)
Theorem constrained_translation_applies_filtered_delta
    (this : FramePtr) (m : Mem) (F : Frame) :
  frames m !! this = Some F →
  let filter := λ d, constrained constrainTranslation (constraint_ F) d this m in
  (constraint_ F = None → ∀ d, filter d = d)
  ∧ (∀ d, ∃ m',
       translate constrainTranslation this d m = Some (filter d, m')
       ∧ translation this m' = Some (vadd (t_ F) (filter d), m'))
  ∧ (∀ t, ∃ m',
       setTranslationWithConstraint constrainTranslation this t m
       = Some (filter (vsub t (t_ F)), m')
       ∧ translation this m'
         = Some (vadd (t_ F) (filter (vsub t (t_ F))), m')
       ∧ (constraint_ F = None → translation this m' = Some (t, m')))
  ∧ (∀ c, constraint_ F = Some c →
       (∀ d f m0, vy d = 0 → vz d = 0 →
                  constrainTranslation c d f m0 = vzero) →
       ∀ d, vy d = 0 → vz d = 0 →
       ∃ m', translate constrainTranslation this d m = Some (vzero, m')
             ∧ translation this m' = Some (t_ F, m')).
Proof.
  intros HF filter.
  assert (Hget : ∀ F' log,
            translation this (mkMem (<[this := F']> (frames m)) log)
            = Some (t_ F', mkMem (<[this := F']> (frames m)) log)).
  { intros F' log. apply translation_eq. simpl. apply lookup_insert_eq. }
  split; [by unfold filter; intros ->|]. split; [|split].
  - intros d. eexists. split; [by apply translate_eq|]. apply Hget.
  - intros t. eexists. split; [by apply setTranslationWithConstraint_eq|].
    split; [apply Hget|].
    intros Hc. rewrite Hget. unfold filter. rewrite Hc. simpl.
    by rewrite vadd_comm, vadd_vsub.
  - intros c Hc Hzero d Hy Hz. eexists.
    split; [rewrite (translate_eq _ _ _ F HF), Hc; simpl;
            by rewrite Hzero|].
    rewrite Hget. simpl. by rewrite vadd_vzero.
Qed.

End ConstrainedProperties.

Lemma constrained_translation_applies_filtered_delta_witness :
  frames busy_mem !! 1%positive = Some busy_frame
  ∧ ∃ m', translate no_x_motion 1%positive (mkvec3 4 0 0) busy_mem
          = Some (vzero, m')
          ∧ translation 1%positive m' = Some (mkvec3 1 2 3, m').
Proof.
  assert (H : frames busy_mem !! 1%positive = Some busy_frame)
    by reflexivity.
  split; [exact H|].
  destruct (constrained_translation_applies_filtered_delta no_x_motion
              1%positive busy_mem busy_frame H) as (_ & _ & _ & Hax).
  apply (Hax 9%positive); try reflexivity.
  intros [x y z] f m0. simpl. intros -> ->. reflexivity.
Defined.

(** * Further properties of the header's member functions *)

(** ** Calls, one and two *)

Lemma call_eq (this : FramePtr) (c : Call) (m : Mem) (F : Frame) :
  frames m !! this = Some F →
  call this c m
  = Some (tt, mkMem (<[this := after_call c F]> (frames m))
                    (notified m
                     ++ if notifies c then elements (observers_ F) else [])).
Proof.
  intros H. destruct c; simpl.
  - by apply setTranslation_eq.
  - by apply setRotation_eq.
  - unfold setConstraint. rewrite (assign_eq _ _ _ F H). by rewrite app_nil_r.
  - unfold addObserver. rewrite (assign_eq _ _ _ F H). by rewrite app_nil_r.
  - unfold removeObserver. rewrite (assign_eq _ _ _ F H). by rewrite app_nil_r.
Qed.

Lemma call_dead (this : FramePtr) (c : Call) (m : Mem) :
  frames m !! this = None → call this c m = None.
Proof.
  intros H. destruct c; simpl;
    unfold setTranslation, setRotation, setConstraint, addObserver,
      removeObserver, mbind, M_bind, assign; by rewrite H.
Qed.

Lemma call_inv (this : FramePtr) (c : Call) (m m' : Mem) :
  call this c m = Some (tt, m') →
  ∃ F, frames m !! this = Some F
       ∧ frames m' = <[this := after_call c F]> (frames m).
Proof.
  destruct (frames m !! this) as [F|] eqn:HF.
  - rewrite (call_eq _ _ _ F HF). intros [= <-]. eauto.
  - by rewrite call_dead.
Qed.

Lemma two_calls (this : FramePtr) (c1 c2 : Call) (m : Mem) (F : Frame) :
  frames m !! this = Some F →
  (call this c1 ;; call this c2) m
  = Some (tt, mkMem (<[this := after_call c2 (after_call c1 F)]> (frames m))
                    ((notified m
                      ++ if notifies c1 then elements (observers_ F) else [])
                     ++ if notifies c2
                        then elements (observers_ (after_call c1 F)) else [])).
Proof.
  intros H. unfold mbind, M_bind. rewrite (call_eq _ _ _ F H).
  rewrite (call_eq _ _ _ (after_call c1 F)) by apply lookup_insert_eq.
  simpl. by rewrite insert_insert_eq.
Qed.

Lemma two_calls_dead (this : FramePtr) (c1 c2 : Call) (m : Mem) :
  frames m !! this = None → (call this c1 ;; call this c2) m = None.
Proof. intros H. unfold mbind, M_bind. by rewrite call_dead. Qed.

(** Two sequences of two calls on the same frame agree as soon as they
    agree on every live frame. *)
Lemma two_calls_agree (this : FramePtr) (c1 c2 d1 d2 : Call) (m : Mem) :
  (∀ F, after_call c2 (after_call c1 F) = after_call d2 (after_call d1 F)) →
  (∀ F, ((if notifies c1 then elements (observers_ F) else [])
         ++ if notifies c2 then elements (observers_ (after_call c1 F)) else [])
        = ((if notifies d1 then elements (observers_ F) else [])
           ++ if notifies d2 then elements (observers_ (after_call d1 F))
              else [])) →
  (call this c1 ;; call this c2) m = (call this d1 ;; call this d2) m.
Proof.
  intros Hf Hl. destruct (frames m !! this) as [F|] eqn:HF.
  - rewrite !(two_calls _ _ _ _ F HF), Hf. do 3 f_equal.
    rewrite <- !(assoc_L (++)). f_equal. apply Hl.
  - by rewrite !two_calls_dead.
Qed.

(** ** Order of calls *)

(** X1.  On one frame [setTranslation], [setRotation] and [setConstraint]
    can be called in any order: the memory after two of them, the
    notifications included, does not depend on which came first. *)
Theorem setters_commute
    (this : FramePtr) (t : vec3) (q : quat) (c : option ConstraintPtr)
    (m : Mem) :
  (setTranslation this t ;; setRotation this q) m
  = (setRotation this q ;; setTranslation this t) m
  ∧ (setConstraint this c ;; setTranslation this t) m
    = (setTranslation this t ;; setConstraint this c) m
  ∧ (setConstraint this c ;; setRotation this q) m
    = (setRotation this q ;; setConstraint this c) m.
Proof.
  split; [|split].
  - by apply (two_calls_agree this (CallSetTranslation t) (CallSetRotation q)
                (CallSetRotation q) (CallSetTranslation t)).
  - apply (two_calls_agree this (CallSetConstraint c) (CallSetTranslation t)
             (CallSetTranslation t) (CallSetConstraint c)); [done|].
    intros F. simpl. by rewrite app_nil_r.
  - apply (two_calls_agree this (CallSetConstraint c) (CallSetRotation q)
             (CallSetRotation q) (CallSetConstraint c)); [done|].
    intros F. simpl. by rewrite app_nil_r.
Qed.

(** ** The observer set, continued *)

Lemma insert_insert_swap (a b : ObserverPtr) (X : gset ObserverPtr) :
  {[b]} ∪ ({[a]} ∪ X) = {[a]} ∪ ({[b]} ∪ X).
Proof. by_elements. Qed.

Lemma erase_erase_swap (a b : ObserverPtr) (X : gset ObserverPtr) :
  X ∖ {[a]} ∖ {[b]} = X ∖ {[b]} ∖ {[a]}.
Proof. by_elements. Qed.

Lemma insert_erase_swap (a b : ObserverPtr) (X : gset ObserverPtr) :
  a ≠ b → ({[a]} ∪ X) ∖ {[b]} = {[a]} ∪ X ∖ {[b]}.
Proof. intros H. by_elements. Qed.

Lemma insert_then_erase (o : ObserverPtr) (X : gset ObserverPtr) :
  o ∉ X → ({[o]} ∪ X) ∖ {[o]} = X.
Proof. intros H. by_elements. Qed.

Lemma erase_then_insert (o : ObserverPtr) (X : gset ObserverPtr) :
  o ∈ X → {[o]} ∪ X ∖ {[o]} = X.
Proof.
  intros H. apply set_eq. intros x.
  rewrite elem_of_union, elem_of_difference, elem_of_singleton.
  destruct (decide (x = o)) as [->|]; intuition congruence.
Qed.

(** X2.  The observer set does not depend on the order of registration. *)
Theorem observer_calls_commute
    (this : FramePtr) (a b : ObserverPtr) (m : Mem) :
  (addObserver this a ;; addObserver this b) m
  = (addObserver this b ;; addObserver this a) m
  ∧ (removeObserver this a ;; removeObserver this b) m
    = (removeObserver this b ;; removeObserver this a) m
  ∧ (a ≠ b →
     (addObserver this a ;; removeObserver this b) m
     = (removeObserver this b ;; addObserver this a) m).
Proof.
  split; [|split].
  - apply (two_calls_agree this (CallAddObserver a) (CallAddObserver b)
             (CallAddObserver b) (CallAddObserver a)); [|done].
    intros F. simpl. unfold set_observers_. simpl.
    by rewrite insert_insert_swap.
  - apply (two_calls_agree this (CallRemoveObserver a) (CallRemoveObserver b)
             (CallRemoveObserver b) (CallRemoveObserver a)); [|done].
    intros F. simpl. unfold set_observers_. simpl.
    by rewrite erase_erase_swap.
  - intros Hab.
    apply (two_calls_agree this (CallAddObserver a) (CallRemoveObserver b)
             (CallRemoveObserver b) (CallAddObserver a)); [|done].
    intros F. simpl. unfold set_observers_. simpl.
    by rewrite insert_erase_swap.
Qed.

Lemma frame_eta (F : Frame) :
  mkFrame (observers_ F) (t_ F) (q_ F) (constraint_ F) (referenceFrame_ F) = F.
Proof. by destruct F. Qed.

Lemma mem_restored (this : FramePtr) (m : Mem) (F F' : Frame) :
  frames m !! this = Some F → F' = F →
  mkMem (<[this := F']> (frames m)) ((notified m ++ []) ++ []) = m.
Proof.
  intros H ->. destruct m as [fs log]. simpl in *.
  rewrite !app_nil_r. f_equal. by apply insert_id.
Qed.

(** When two calls on a frame give back the memory they started from,
    they give back the frame. *)
Lemma two_calls_restore (this : FramePtr) (c1 c2 : Call) (m : Mem)
    (F : Frame) :
  frames m !! this = Some F →
  (call this c1 ;; call this c2) m = Some (tt, m) →
  after_call c2 (after_call c1 F) = F.
Proof.
  intros HF. rewrite (two_calls _ _ _ _ F HF). intros [= Hm].
  apply (f_equal (λ x, frames x !! this)) in Hm. simpl in Hm.
  rewrite lookup_insert_eq, HF in Hm. by injection Hm.
Qed.

(** X3.  Registering an observer and removing it again gives back the
    memory as it was exactly when the observer was not registered before;
    removing an observer and registering it again gives back the memory as
    it was exactly when the observer was registered before. *)
Theorem addObserver_removeObserver_round_trip
    (this : FramePtr) (o : ObserverPtr) (m : Mem) (F : Frame) :
  frames m !! this = Some F →
  ((addObserver this o ;; removeObserver this o) m = Some (tt, m)
   ↔ o ∉ observers_ F)
  ∧ ((removeObserver this o ;; addObserver this o) m = Some (tt, m)
     ↔ o ∈ observers_ F).
Proof.
  intros HF. split; split.
  - intros Heq Ho.
    pose proof (two_calls_restore this (CallAddObserver o)
                  (CallRemoveObserver o) m F HF Heq) as E.
    apply (f_equal observers_) in E. simpl in E.
    rewrite <- E in Ho. apply elem_of_difference in Ho as [_ Ho].
    by apply Ho, elem_of_singleton.
  - intros Ho. etrans;
      [exact (two_calls this (CallAddObserver o) (CallRemoveObserver o)
                m F HF)|].
    simpl. do 2 f_equal. apply (mem_restored this m F); [done|].
    unfold set_observers_. simpl. rewrite insert_then_erase by done.
    apply frame_eta.
  - intros Heq.
    pose proof (two_calls_restore this (CallRemoveObserver o)
                  (CallAddObserver o) m F HF Heq) as E.
    apply (f_equal observers_) in E. simpl in E.
    rewrite <- E. apply elem_of_union_l. by apply elem_of_singleton.
  - intros Ho. etrans;
      [exact (two_calls this (CallRemoveObserver o) (CallAddObserver o)
                m F HF)|].
    simpl. do 2 f_equal. apply (mem_restored this m F); [done|].
    unfold set_observers_. simpl. rewrite erase_then_insert by done.
    apply frame_eta.
Qed.

Lemma addObserver_removeObserver_round_trip_witness :
  frames busy_mem !! 1%positive = Some busy_frame
  ∧ (addObserver 1%positive 7%positive ;; removeObserver 1%positive 7%positive)
      busy_mem = Some (tt, busy_mem)
  ∧ (removeObserver 1%positive 5%positive ;; addObserver 1%positive 5%positive)
      busy_mem = Some (tt, busy_mem)
  ∧ (addObserver 1%positive 5%positive ;; removeObserver 1%positive 5%positive)
      busy_mem ≠ Some (tt, busy_mem).
Proof.
  assert (H : frames busy_mem !! 1%positive = Some busy_frame)
    by reflexivity.
  split; [exact H|].
  destruct (addObserver_removeObserver_round_trip 1%positive 7%positive
              busy_mem busy_frame H) as [H7 _].
  destruct (addObserver_removeObserver_round_trip 1%positive 5%positive
              busy_mem busy_frame H) as [H5' H5].
  assert (Hin : 5%positive ∈ observers_ busy_frame).
  { unfold busy_frame. simpl. apply elem_of_union_l. by apply elem_of_singleton. }
  split; [|split].
  - apply H7. unfold busy_frame. simpl.
    rewrite elem_of_union, !elem_of_singleton. intros [|]; discriminate.
  - by apply H5.
  - intros Heq. by apply H5' in Heq.
Defined.

(** ** Registration and notification *)

Lemma registered_then_notified (this : FramePtr) (r c : Call) (m : Mem)
    (F : Frame) :
  frames m !! this = Some F → notifies r = false → notifies c = true →
  ∃ m', (call this r ;; call this c) m = Some (tt, m')
        ∧ ∀ o, notifications o (notified m')
               = (notifications o (notified m)
                  + if decide (o ∈ observers_ (after_call r F)) then 1 else 0)%nat.
Proof.
  intros HF Hr Hc. eexists. split; [by apply two_calls|].
  intros o. simpl. rewrite Hr, Hc, app_nil_r.
  by rewrite notifications_app, notifications_elements.
Qed.

(** X4.  An observer registered by [addObserver] receives exactly one
    notification from the next [setTranslation] or [setRotation], whether
    or not it was registered before; an observer removed by
    [removeObserver] receives none.  The other observers are notified as
    they would have been without the registration or removal. *)
Theorem observer_registration_decides_notification
    (this : FramePtr) (o : ObserverPtr) (c : Call) (m : Mem) (F : Frame) :
  frames m !! this = Some F → notifies c = true →
  (∃ m', (addObserver this o ;; call this c) m = Some (tt, m')
         ∧ notifications o (notified m') = S (notifications o (notified m))
         ∧ ∀ o', o' ≠ o →
             notifications o' (notified m')
             = (notifications o' (notified m)
                + if decide (o' ∈ observers_ F) then 1 else 0)%nat)
  ∧ (∃ m', (removeObserver this o ;; call this c) m = Some (tt, m')
           ∧ notifications o (notified m') = notifications o (notified m)
           ∧ ∀ o', o' ≠ o →
               notifications o' (notified m')
               = (notifications o' (notified m)
                  + if decide (o' ∈ observers_ F) then 1 else 0)%nat).
Proof.
  intros HF Hc. split.
  - destruct (registered_then_notified this (CallAddObserver o) c m F HF
                eq_refl Hc) as (m' & Hm' & Hn).
    exists m'. split; [exact Hm'|]. simpl in Hn. split.
    + rewrite Hn, decide_True; [lia|].
      apply elem_of_union_l. by apply elem_of_singleton.
    + intros o' Ho'. rewrite Hn. f_equal. apply decide_ext.
      rewrite elem_of_union, elem_of_singleton. intuition congruence.
  - destruct (registered_then_notified this (CallRemoveObserver o) c m F HF
                eq_refl Hc) as (m' & Hm' & Hn).
    exists m'. split; [exact Hm'|]. simpl in Hn. split.
    + rewrite Hn, decide_False; [lia|].
      rewrite elem_of_difference, elem_of_singleton. intuition congruence.
    + intros o' Ho'. rewrite Hn. f_equal. apply decide_ext.
      rewrite elem_of_difference, elem_of_singleton. intuition congruence.
Qed.

Lemma observer_registration_decides_notification_witness :
  frames busy_mem !! 1%positive = Some busy_frame
  ∧ (∃ m', (addObserver 1%positive 7%positive ;;
            setRotation 1%positive (mkquat 0 1 0 0)) busy_mem = Some (tt, m')
           ∧ notifications 7%positive (notified m') = 1%nat)
  ∧ (∃ m', (removeObserver 1%positive 5%positive ;;
            setTranslation 1%positive vzero) busy_mem = Some (tt, m')
           ∧ notifications 5%positive (notified m') = 1%nat).
Proof.
  assert (H : frames busy_mem !! 1%positive = Some busy_frame)
    by reflexivity.
  split; [exact H|]. split.
  - destruct (observer_registration_decides_notification 1%positive
                7%positive (CallSetRotation (mkquat 0 1 0 0)) busy_mem
                busy_frame H eq_refl) as [(m' & Hm' & Hn & _) _].
    exists m'. split; [exact Hm'|exact Hn].
  - destruct (observer_registration_decides_notification 1%positive
                5%positive (CallSetTranslation vzero) busy_mem
                busy_frame H eq_refl) as [_ (m' & Hm' & Hn & _)].
    exists m'. split; [exact Hm'|exact Hn].
Defined.

(** ** A run of setters *)

Lemma after_call_t_ (c : Call) (F : Frame) (cs : list Call) :
  last_translation (t_ F) (c :: cs) = last_translation (t_ (after_call c F)) cs.
Proof. by destruct c. Qed.

Lemma after_call_q_ (c : Call) (F : Frame) (cs : list Call) :
  last_rotation (q_ F) (c :: cs) = last_rotation (q_ (after_call c F)) cs.
Proof. by destruct c. Qed.

Lemma after_call_observers_ (c : Call) (F : Frame) :
  keeps_observers c = true → observers_ (after_call c F) = observers_ F.
Proof. by destruct c. Qed.

(** X5.  After any run of [setTranslation], [setRotation] and
    [setConstraint] calls on a frame, [translation()] and [rotation()]
    return the arguments of the last [setTranslation] and of the last
    [setRotation] (the old values if there was none), and every observer
    of the frame has been notified once for each [setTranslation] and
    [setRotation] in the run, also for those that stored the value the
    frame already had; nobody else has been notified. *)
Theorem run_of_setters
    (this : FramePtr) (cs : list Call) :
  Forall (λ c, keeps_observers c = true) cs →
  ∀ (m : Mem) (F : Frame), frames m !! this = Some F →
  ∃ m', calls (pair this <$> cs) m = Some (tt, m')
        ∧ translation this m' = Some (last_translation (t_ F) cs, m')
        ∧ rotation this m' = Some (last_rotation (q_ F) cs, m')
        ∧ ∀ o, notifications o (notified m')
               = (notifications o (notified m)
                  + if decide (o ∈ observers_ F)
                    then length (List.filter notifies cs) else 0)%nat.
Proof.
  induction 1 as [|c cs Hc Hcs IH]; intros m F HF.
  - exists m. split; [done|]. split; [by apply translation_eq|].
    split; [by apply rotation_eq|]. intros o. case_decide; simpl; lia.
  - pose proof (call_eq this c m F HF) as Hcall.
    set (m1 := mkMem (<[this := after_call c F]> (frames m))
                     (notified m
                      ++ if notifies c then elements (observers_ F) else []))
      in Hcall.
    assert (H1 : frames m1 !! this = Some (after_call c F))
      by apply lookup_insert_eq.
    destruct (IH m1 (after_call c F) H1) as (m' & Hm' & Ht & Hq & Hn).
    exists m'. split.
    { simpl. unfold mbind, M_bind. by rewrite Hcall. }
    rewrite after_call_t_, after_call_q_.
    split; [exact Ht|]. split; [exact Hq|].
    intros o. rewrite Hn, after_call_observers_ by done. subst m1. simpl.
    rewrite notifications_app.
    destruct (notifies c); simpl.
    + rewrite notifications_elements. case_decide; lia.
    + unfold notifications at 2. simpl. case_decide; lia.
Qed.

Lemma run_of_setters_witness :
  Forall (λ c, keeps_observers c = true)
    [CallSetTranslation (mkvec3 1 2 3); CallSetConstraint None;
     CallSetTranslation (mkvec3 1 2 3)]
  ∧ frames busy_mem !! 1%positive = Some busy_frame
  ∧ ∃ m', calls (pair 1%positive <$>
                   [CallSetTranslation (mkvec3 1 2 3); CallSetConstraint None;
                    CallSetTranslation (mkvec3 1 2 3)]) busy_mem
          = Some (tt, m')
          ∧ translation 1%positive m' = Some (mkvec3 1 2 3, m')
          ∧ notifications 6%positive (notified m') = 2%nat.
Proof.
  assert (Hk : Forall (λ c, keeps_observers c = true)
                 [CallSetTranslation (mkvec3 1 2 3); CallSetConstraint None;
                  CallSetTranslation (mkvec3 1 2 3)])
    by (repeat constructor).
  assert (H : frames busy_mem !! 1%positive = Some busy_frame)
    by reflexivity.
  split; [exact Hk|]. split; [exact H|].
  destruct (run_of_setters 1%positive _ Hk busy_mem busy_frame H)
    as (m' & Hm' & Ht & _ & Hn).
  exists m'. split; [exact Hm'|]. split; [exact Ht|].
  rewrite Hn. reflexivity.
Defined.

(** ** The hierarchy under the header's mutators *)

Lemma after_call_referenceFrame_ (c : Call) (F : Frame) :
  referenceFrame_ (after_call c F) = referenceFrame_ F.
Proof. by destruct c. Qed.

Lemma chainFrom_insert (n : nat) (s : gmap FramePtr Frame) (a : FramePtr)
    (F F' : Frame) :
  s !! a = Some F → referenceFrame_ F' = referenceFrame_ F →
  ∀ f, chainFrom n (<[a := F']> s) f = chainFrom n s f.
Proof.
  intros Ha Hr. induction n as [|k IH]; intros [b|]; simpl; try done.
  destruct (decide (a = b)) as [<-|Hab].
  - rewrite lookup_insert_eq, Ha. simpl. by rewrite Hr, IH.
  - rewrite lookup_insert_ne by done.
    destruct (s !! b) as [B|]; [|done]. simpl. by rewrite IH.
Qed.

Lemma links_insert (s : gmap FramePtr Frame) (a : FramePtr) (F F' : Frame) :
  s !! a = Some F → referenceFrame_ F' = referenceFrame_ F →
  ∀ b, referenceFrame_ <$> <[a := F']> s !! b = referenceFrame_ <$> s !! b.
Proof.
  intros Ha Hr b. destruct (decide (a = b)) as [<-|Hab].
  - rewrite lookup_insert_eq, Ha. simpl. by rewrite Hr.
  - by rewrite lookup_insert_ne.
Qed.

(** X6.  No run of [setTranslation], [setRotation], [setConstraint],
    [addObserver] and [removeObserver] calls, on whatever frames, changes
    the hierarchy: every frame keeps its reference frame, the chain of
    reference frames that starts at any pointer stays the same, and the
    same frames are alive. *)
Theorem header_mutators_keep_hierarchy
    (l : list (FramePtr * Call)) :
  ∀ m m' : Mem, calls l m = Some (tt, m') →
  (∀ a, referenceFrame_ <$> frames m' !! a = referenceFrame_ <$> frames m !! a)
  ∧ (∀ n f, chainFrom n (frames m') f = chainFrom n (frames m) f)
  ∧ dom (frames m') = dom (frames m).
Proof.
  induction l as [|[this c] l IH]; intros m m'; simpl.
  - by intros [= <-].
  - unfold mbind, M_bind.
    destruct (call this c m) as [[[] m1]|] eqn:Hc; [|done].
    intros Hl. destruct (IH m1 m' Hl) as (IH1 & IH2 & IH3).
    destruct (call_inv _ _ _ _ Hc) as (F & HF & Hm1).
    pose proof (after_call_referenceFrame_ c F) as Hr.
    split; [|split].
    + intros a. rewrite IH1, Hm1. by apply (links_insert _ _ F).
    + intros n f. rewrite IH2, Hm1. by apply (chainFrom_insert _ _ _ F).
    + rewrite IH3, Hm1. apply dom_insert_lookup_L. by rewrite HF.
Qed.

Lemma header_mutators_keep_hierarchy_witness :
  ∃ m', calls [(4%positive, CallSetTranslation vzero);
               (2%positive, CallAddObserver 8%positive);
               (4%positive, CallSetRotation (mkquat 0 0 1 0))]
          (mkMem tower []) = Some (tt, m')
        ∧ chainFrom 4 (frames m') (Some 4%positive)
          = Some [4%positive; 3%positive; 2%positive; 1%positive].
Proof.
  assert (H : ∃ m', calls [(4%positive, CallSetTranslation vzero);
                            (2%positive, CallAddObserver 8%positive);
                            (4%positive, CallSetRotation (mkquat 0 0 1 0))]
                       (mkMem tower []) = Some (tt, m'))
    by (eexists; reflexivity).
  destruct H as [m' H]. exists m'. split; [exact H|].
  destruct (header_mutators_keep_hierarchy _ _ _ H) as (_ & -> & _).
  reflexivity.
Defined.

(** X7.  A run of [setTranslation], [setRotation], [setConstraint],
    [addObserver] and [removeObserver] calls changes no frame other than
    those it is called on: a frame that is not the receiver of any call of
    the run has all its data members as before. *)
Theorem header_mutators_leave_other_frames
    (l : list (FramePtr * Call)) (b : FramePtr) :
  b ∉ (fst <$> l) →
  ∀ m m' : Mem, calls l m = Some (tt, m') → frames m' !! b = frames m !! b.
Proof.
  induction l as [|[this c] l IH]; intros Hb m m'; simpl.
  - by intros [= <-].
  - simpl in Hb. apply not_elem_of_cons in Hb as [Hne Hb].
    unfold mbind, M_bind.
    destruct (call this c m) as [[[] m1]|] eqn:Hc; [|done].
    intros Hl. rewrite (IH Hb m1 m' Hl).
    destruct (call_inv _ _ _ _ Hc) as (F & HF & ->).
    by rewrite lookup_insert_ne.
Qed.

Lemma header_mutators_leave_other_frames_witness :
  (3%positive ∉ (fst <$> [(4%positive, CallSetTranslation vzero);
                           (2%positive, CallAddObserver 8%positive)]))
  ∧ ∃ m', calls [(4%positive, CallSetTranslation vzero);
                 (2%positive, CallAddObserver 8%positive)]
            (mkMem tower []) = Some (tt, m')
          ∧ frames m' !! 3%positive = Some tower_3.
Proof.
  assert (Hb : 3%positive ∉ (fst <$> [(4%positive, CallSetTranslation vzero);
                                      (2%positive, CallAddObserver 8%positive)])).
  { simpl. rewrite !not_elem_of_cons. repeat split; try discriminate.
    apply not_elem_of_nil. }
  split; [exact Hb|].
  assert (H : ∃ m', calls [(4%positive, CallSetTranslation vzero);
                           (2%positive, CallAddObserver 8%positive)]
                      (mkMem tower []) = Some (tt, m'))
    by (eexists; reflexivity).
  destruct H as [m' H]. exists m'. split; [exact H|].
  etrans; [exact (header_mutators_leave_other_frames _ _ Hb _ _ H)|].
  reflexivity.
Defined.

(** ** [worldInverse()], continued *)

Lemma worldInverse_undoes_world_transform_witness :
  unit_chain 3 tower tower_4
  ∧ ∃ G w, worldInverse 3 tower tower_4 = Some G
           ∧ inverseCoordinatesOf 3 tower tower_4 (mkvec3 1 1 1) = Some w
           ∧ inverseCoordinatesOf 0 ∅ G w = Some (mkvec3 1 1 1).
Proof.
  split; [exact tower_4_unit_chain|].
  assert (HG : ∃ G, worldInverse 3 tower tower_4 = Some G)
    by (eexists; reflexivity).
  assert (Hw : ∃ w, inverseCoordinatesOf 3 tower tower_4 (mkvec3 1 1 1)
                    = Some w) by (eexists; reflexivity).
  destruct HG as [G HG], Hw as [w Hw]. exists G, w.
  split; [exact HG|]. split; [exact Hw|].
  exact (worldInverse_undoes_world_transform 3 tower tower_4 G
           (mkvec3 1 1 1) w tower_4_unit_chain HG Hw 0%nat ∅).
Defined.

Lemma inverse_involutive (q : quat) : inverse (inverse q) = q.
Proof. destruct q. unfold inverse. simpl. f_equal; ring. Qed.

Lemma rotate_vneg (q : quat) (a : vec3) :
  rotate q (vneg a) = vneg (rotate q a).
Proof. destruct a. unfold rotate, vneg. simpl. f_equal; ring. Qed.

Lemma vneg_vneg (a : vec3) : vneg (vneg a) = a.
Proof. destruct a. unfold vneg. simpl. f_equal; ring. Qed.

Lemma vlength_vneg (a : vec3) : vlength (vneg a) = vlength a.
Proof.
  destruct a. unfold vlength, vdot, vneg. simpl. f_equal. ring.
Qed.

(** The world position and orientation of a frame with a chain of unit
    rotations, and what [worldInverse()] makes of them. *)
Lemma worldInverse_eq (n : nat) (s : gmap FramePtr Frame) (F : Frame) :
  unit_chain n s F →
  ∃ o p, orientation n s F = Some o ∧ is_unit o ∧ position n s F = Some p
         ∧ worldInverse n s F
           = Some (Frame_at (vneg (inverse_rotate o p)) (inverse o)).
Proof.
  intros HF.
  destruct (inverseCoordinatesOf_position_orientation n s F HF)
    as (o & p & Ho & Hu & Hp & _).
  exists o, p. repeat split; try done.
  unfold worldInverse. by rewrite Ho, Hp.
Qed.

Lemma worldInverse_root (k : nat) (s : gmap FramePtr Frame) (F : Frame) :
  referenceFrame_ F = None →
  worldInverse k s F
  = Some (Frame_at (vneg (inverse_rotate (q_ F) (t_ F))) (inverse (q_ F))).
Proof.
  intros H. unfold worldInverse.
  by rewrite orientation_root, position_root.
Qed.

(** X8.  [worldInverse()] applied twice gives back the frame's world
    position and orientation: when the world orientation of a frame is a
    unit quaternion, the world inverse of its world inverse is the
    parentless frame at the original world position with the original
    world orientation. *)
Theorem worldInverse_twice
    (n : nat) (s : gmap FramePtr Frame) (F : Frame) (o : quat) (p : vec3) :
  orientation n s F = Some o → position n s F = Some p → is_unit o →
  ∃ G, worldInverse n s F = Some G
       ∧ ∀ k s', worldInverse k s' G = Some (Frame_at p o).
Proof.
  intros Ho Hp Hu.
  exists (Frame_at (vneg (inverse_rotate o p)) (inverse o)).
  split; [unfold worldInverse; by rewrite Ho, Hp|].
  intros k s'. rewrite worldInverse_root by done. simpl.
  rewrite inverse_involutive. unfold inverse_rotate at 1.
  by rewrite inverse_involutive, rotate_vneg, vneg_vneg,
    rotate_inverse_rotate.
Qed.

Lemma worldInverse_twice_witness :
  unit_chain 3 tower tower_4
  ∧ ∃ o p G, orientation 3 tower tower_4 = Some o
             ∧ position 3 tower tower_4 = Some p
             ∧ worldInverse 3 tower tower_4 = Some G
             ∧ worldInverse 0 ∅ G = Some (Frame_at p o).
Proof.
  split; [exact tower_4_unit_chain|].
  destruct (worldInverse_eq 3 tower tower_4 tower_4_unit_chain)
    as (o & p & Ho & Hu & Hp & _).
  destruct (worldInverse_twice 3 tower tower_4 o p Ho Hp Hu) as (G & HG & HGG).
  exists o, p, G. split; [exact Ho|]. split; [exact Hp|].
  split; [exact HG|]. apply HGG.
Defined.

(** X9.  [worldInverse()] keeps the rotation invariant and the distance
    to the origin: when the world orientation of a frame is a unit
    quaternion, the returned frame has a unit rotation, and its position
    is as far from the world origin as the original world position. *)
Theorem worldInverse_unit_and_distance
    (n : nat) (s : gmap FramePtr Frame) (F : Frame) (o : quat) (p : vec3) :
  orientation n s F = Some o → position n s F = Some p → is_unit o →
  ∃ G, worldInverse n s F = Some G
       ∧ is_unit (q_ G)
       ∧ vlength (t_ G) = vlength p
       ∧ ∀ k s', unit_chain k s' G.
Proof.
  intros Ho Hp Hu.
  exists (Frame_at (vneg (inverse_rotate o p)) (inverse o)).
  split; [unfold worldInverse; by rewrite Ho, Hp|].
  assert (Hi : is_unit (inverse o)) by by apply is_unit_inverse.
  split; [exact Hi|].
  split; [simpl; by rewrite vlength_vneg, vlength_inverse_rotate|].
  intros k s'. eexists. split; [by destruct k|]. by repeat constructor.
Qed.

Lemma worldInverse_unit_and_distance_witness :
  unit_chain 3 tower tower_4
  ∧ ∃ p G, position 3 tower tower_4 = Some p
           ∧ worldInverse 3 tower tower_4 = Some G
           ∧ is_unit (q_ G)
           ∧ vlength (t_ G) = vlength p.
Proof.
  split; [exact tower_4_unit_chain|].
  destruct (worldInverse_eq 3 tower tower_4 tower_4_unit_chain)
    as (o & p & Ho & Hu & Hp & _).
  destruct (worldInverse_unit_and_distance 3 tower tower_4 o p Ho Hp Hu)
    as (G & HG & HuG & Hl & _).
  exists p, G. split; [exact Hp|]. split; [exact HG|].
  split; [exact HuG|exact Hl].
Defined.
